(** * lib/authorise.js: the OAuth2 bearer-token authorisation filter

    A shallow embedding of [authorise.getBearerToken],
    [authorise.validateAccessToken] and [authorise.handle].

    The three functions are written in continuation-passing style in the
    source ([next] is called exactly once, in tail position); they are kept
    in that style here.  The request object is the only mutable state the
    source touches; it travels in a [World] together with the log of the
    calls made to [model.getAccessToken], and every call of [next] receives
    the world as it is at the moment of the call. *)

From Stdlib Require Import ZArith Ascii String List Bool Lia.
From stdpp Require Import base option gmap strings.

Local Open Scope Z_scope.

(** ** JavaScript values read by the filter *)

(** The request accessors deliver [string | undefined]; [None] is
    [undefined].  A string is a sequence of code units below 256, which is
    what the host delivers for a header value. *)
Abbreviation jsstring := (option string).

(** [typeof v !== 'undefined'] *)
Definition defined (v : jsstring) : bool :=
  match v with
  | Some _ => true
  | None => false
  end.

(** ToBoolean on [string | undefined]: only [undefined] and the empty
    string are falsy. *)
Definition truthy (v : jsstring) : bool :=
  match v with
  | Some EmptyString => false
  | Some (String _ _) => true
  | None => false
  end.

(** [a || b] : the left operand when it is truthy, the right one otherwise. *)
Definition js_or (a b : jsstring) : jsstring :=
  if truthy a then a else b.

Infix "|||" := js_or (at level 50, left associativity).

(** ** The pattern [/Bearer\s(\S+)/] *)

(** [\s] on code units below 256: TAB, LF, VT, FF, CR, SPACE and NBSP. *)
Definition is_space (c : ascii) : bool :=
  let n := N_of_ascii c in
  ((9 <=? n) && (n <=? 13) || (n =? 32) || (n =? 160))%N.

(** [(\S+)], greedy and last in the pattern: the longest run of non-space
    characters at the head of [s]. *)
Fixpoint nonspace_run (s : string) : string :=
  match s with
  | EmptyString => EmptyString
  | String c s' => if is_space c then EmptyString else String c (nonspace_run s')
  end.

(** The literal part of the pattern: [skip_literal l s] is what is left of [s]
    once [l] has been read at its head. *)
Fixpoint skip_literal (l s : string) : option string :=
  match l, s with
  | EmptyString, _ => Some s
  | String a l', String b s' => if Ascii.eqb a b then skip_literal l' s' else None
  | String _ _, EmptyString => None
  end.

(** One attempt of the pattern at the head of [s]; the result is capture
    group 1. *)
Definition match_here (s : string) : option string :=
  match skip_literal "Bearer" s with
  | Some (String c rest) =>
      if is_space c then
        match nonspace_run rest with
        | EmptyString => None
        | tok => Some tok
        end
      else None
  | _ => None
  end.

(** [s.match(/Bearer\s(\S+)/)], then [matches[1]]: the pattern is not
    anchored, so it is tried at index 0, 1, 2, ... and the first success
    wins; [None] is the [null] result. *)
Fixpoint match_Bearer (s : string) : option string :=
  match match_here s with
  | Some tok => Some tok
  | None =>
      match s with
      | EmptyString => None
      | String _ s' => match_Bearer s'
      end
  end.

(** ** Protocol errors *)

(** An error value handed over by the store: a JavaScript [Error] with its
    message.  Such an object is always truthy. *)
Record Error := mkError { message : string }.

(** The second constructor argument of [OAuth2Error]: a description, or
    [false]. *)
Inductive Description :=
| Text (msg : string)
| NoDescription.

(** Modelled from the spec: the constructor [OAuth2Error] of './error', which
    is not among the sources.  A Protocol Error is "a tagged value with a
    machine-readable kind, a human-readable description (or no description
    for internal errors), and an optional wrapped cause"; the record keeps
    the three constructor arguments, so that
    [new OAuth2Error('invalid_grant', 'text')] is
    [new_OAuth2Error "invalid_grant" (Text "text") None] and
    [new OAuth2Error('server_error', false, err)] is
    [new_OAuth2Error "server_error" NoDescription (Some err)]. *)
Record OAuth2Error := new_OAuth2Error {
  error : string;
  error_description : Description;
  cause : option Error
}.

(** Modelled from the spec: what the host does with a Protocol Error is not
    among the sources.  The description shown to a client is the one the
    error was built with, and none when it was built with [false]; the
    wrapped cause is never part of it. *)
Definition exposed_description (e : OAuth2Error) : option string :=
  match error_description e with
  | Text msg => Some msg
  | NoDescription => None
  end.

(** ** The request *)

(** [req.user], as the filter writes it: [{ id: ... }]. *)
Record Identity := mkIdentity { id : string }.

(** Modelled from the spec: the request object belongs to the host, which is
    not among the sources.  It "exposes an Authorization header value, a
    query-parameter mapping, a body-parameter mapping, and an HTTP method",
    with accessors of type [string | absent]; [user] is the slot the filter
    writes. *)
Record Request := mkRequest {
  get : string -> jsstring;
  query : gmap string string;
  body : gmap string string;
  method : string;
  user : option Identity
}.

(** [req.user = u] *)
Definition set_user (req : Request) (u : Identity) : Request :=
  mkRequest (get req) (query req) (body req) (method req) (Some u).

(** ** authorise.getBearerToken *)

Definition only_one_method : OAuth2Error :=
  new_OAuth2Error "invalid_request"
    (Text "Only one method may be used to authenticate at a time (Auth header, GET or POST).")
    None.

Definition token_not_found : OAuth2Error :=
  new_OAuth2Error "invalid_request" (Text "The access token was not found") None.

Definition malformed_header : OAuth2Error :=
  new_OAuth2Error "invalid_request" (Text "Malformed auth header") None.

Definition method_must_be_POST : OAuth2Error :=
  new_OAuth2Error "invalid_request"
    (Text "When putting the token in the body, the method must be POST.")
    None.

(** [(typeof headerToken !== 'undefined') + (typeof getToken !== 'undefined')
     + (typeof postToken !== 'undefined')] *)
Definition methodsUsed (req : Request) : nat :=
  (Nat.b2n (defined (get req "Authorization"))
   + Nat.b2n (defined (query req !! "access_token"))
   + Nat.b2n (defined (body req !! "access_token")))%nat.

(** The callback receives [(err, bearerToken)]; a call with the error alone
    leaves [bearerToken] undefined, and [next(null, t)] has no error. *)
Definition getBearerToken {R} (req : Request)
    (next : option OAuth2Error -> jsstring -> R) : R :=
  let headerToken := get req "Authorization" in
  let getToken := query req !! "access_token" in
  let postToken := body req !! "access_token" in
  if (1 <? methodsUsed req)%nat then next (Some only_one_method) None
  else if (methodsUsed req =? 0)%nat then next (Some token_not_found) None
  else
    (* POST, and the exit point *)
    let rest (headerToken : jsstring) :=
      if truthy postToken && negb (String.eqb (method req) "POST")
      then next (Some method_must_be_POST) None
      else next None (headerToken ||| postToken ||| getToken) in
    (* Header *)
    match headerToken with
    | Some (String c h) =>
        match match_Bearer (String c h) with
        | None => next (Some malformed_header) None
        | Some matches1 => rest (Some matches1)
        end
    | _ => rest headerToken
    end.

(** ** authorise.validateAccessToken *)

(** The record the store returns; [expires] is a [Date] (its time value, in
    milliseconds) or is missing. *)
Record AccessToken := mkAccessToken {
  expires : option Z;
  user_id : string
}.

(** [model.getAccessToken(bearerToken, callback)]: the arguments
    [(err, token)] the store gives to its callback; [None] is a falsy
    [err], respectively a falsy [token]. *)
Record Model := mkModel {
  getAccessToken : jsstring -> option Error * option AccessToken
}.

(** [this]: the server object, with its store and its [now] (the time value
    of a [Date]). *)
Record OAuth2Server := mkOAuth2Server {
  model : Model;
  now : Z
}.

(** The request object together with the calls made to the store so far,
    latest first. *)
Record World := mkWorld {
  request : Request;
  lookups : list jsstring
}.

Definition invalid_token : OAuth2Error :=
  new_OAuth2Error "invalid_grant" (Text "The access token provided is invalid.") None.

Definition expired_token : OAuth2Error :=
  new_OAuth2Error "invalid_grant" (Text "The access token provided has expired.") None.

(** [!token.expires || token.expires < this.now]: a [Date] is truthy, and
    [<] compares the time values. *)
Definition has_expired (this : OAuth2Server) (token : AccessToken) : bool :=
  match expires token with
  | None => true
  | Some e => e <? now this
  end.

Definition validateAccessToken {R} (this : OAuth2Server)
    (token : option AccessToken) (w : World)
    (next : World -> option OAuth2Error -> R) : R :=
  match token with
  | None => next w (Some invalid_token)
  | Some token =>
      if has_expired this token then next w (Some expired_token)
      else
        (* Expose params *)
        let w' := mkWorld (set_user (request w) (mkIdentity (user_id token)))
                          (lookups w) in
        next w' None (* Exit point *)
  end.

(** ** authorise.handle *)

(** [res] is not used by the source and is left out. *)
Definition handle {R} (this : OAuth2Server) (w : World)
    (next : World -> option OAuth2Error -> R) : R :=
  getBearerToken (request w) (fun err bearerToken =>
    match err with
    | Some err => next w (Some err)
    | None =>
        let w1 := mkWorld (request w) (bearerToken :: lookups w) in
        match getAccessToken (model this) bearerToken with
        | (Some err, _) => next w1 (Some (new_OAuth2Error "server_error" NoDescription (Some err)))
        | (None, token) => validateAccessToken this token w1 next
        end
    end).

(** ** Observing the filter *)

(** [getBearerToken] with a callback that hands back what it was called
    with. *)
Definition extract (req : Request) : OAuth2Error + jsstring :=
  getBearerToken req (fun err bearerToken =>
    match err with
    | Some e => inl e
    | None => inr bearerToken
    end).

(** [handle] with a [next] that hands back the world and the error it was
    called with. *)
Definition run (this : OAuth2Server) (w : World) : World * option OAuth2Error :=
  handle this w pair.

(** The Authorization Outcome of the data model: what the next stage
    learns. *)
Inductive Outcome :=
| Authorized (identity : option Identity)
| Rejected (e : OAuth2Error).

Definition outcome (this : OAuth2Server) (w : World) : Outcome :=
  handle this w (fun w' err =>
    match err with
    | Some e => Rejected e
    | None => Authorized (user (request w'))
    end).

(** ** Concrete requests and stores *)

Definition header_only (h : string) : string -> jsstring :=
  fun name => if String.eqb name "Authorization" then Some h else None.

Definition no_header : string -> jsstring := fun _ => None.

Definition fresh (req : Request) : World := mkWorld req [].

(** A store with the single record [abc123], which expires at 4600 and
    belongs to [u1]. *)
Definition store_abc123 : Model :=
  mkModel (fun t =>
    if decide (t = Some "abc123")
    then (None, Some (mkAccessToken (Some 4600) "u1"))
    else (None, None)).

Definition broken_store : Model :=
  mkModel (fun _ => (Some (mkError "connection refused"), None)).

Definition req_header_abc123 : Request :=
  mkRequest (header_only "Bearer abc123") ∅ ∅ "GET" None.

Definition req_query_xyz : Request :=
  mkRequest no_header {[ "access_token" := "xyz" ]} ∅ "GET" None.

Definition req_body_tok_GET : Request :=
  mkRequest no_header ∅ {[ "access_token" := "tok" ]} "GET" None.

Definition req_header_and_query : Request :=
  mkRequest (header_only "Bearer tok") {[ "access_token" := "tok" ]} ∅ "GET" None.

Definition req_Basic : Request :=
  mkRequest (header_only "Basic xyz") ∅ ∅ "GET" None.

(** The three times at which the record [abc123] is looked at. *)
Definition server_before_expiry : OAuth2Server := mkOAuth2Server store_abc123 1000.
Definition server_at_expiry : OAuth2Server := mkOAuth2Server store_abc123 4600.
Definition server_after_expiry : OAuth2Server := mkOAuth2Server store_abc123 5000.

(** A store in which every token is valid until 4600. *)
Definition store_accepts_all : Model :=
  mkModel (fun _ => (None, Some (mkAccessToken (Some 4600) "u1"))).

(** An Authorization header that is present and empty. *)
Definition req_empty_header : Request :=
  mkRequest (header_only "") ∅ ∅ "GET" None.

(** The number of carriers whose value is defined and not empty: the reading
    of "present" as "defined and non-empty". *)
Definition nonempty_carriers (req : Request) : nat :=
  (Nat.b2n (truthy (get req "Authorization"))
   + Nat.b2n (truthy (query req !! "access_token"))
   + Nat.b2n (truthy (body req !! "access_token")))%nat.

(** ** Occurrences of the pattern, stated on the text *)

(** No character of [s] is a space character. *)
Fixpoint no_space (s : string) : bool :=
  match s with
  | EmptyString => true
  | String c s' => negb (is_space c) && no_space s'
  end.

(** [s] is empty or begins with a space character: a run of non-space
    characters that ends where [s] begins cannot be made longer. *)
Definition stops_run (s : string) : bool :=
  match s with
  | EmptyString => true
  | String c _ => is_space c
  end.

(** [h] reads: [pre], then [Bearer], then one space character, then the
    non-empty run [tok] of non-space characters, which ends there. *)
Definition occurs_after (pre h tok : string) : Prop :=
  exists c post,
    h = pre +:+ "Bearer" +:+ String c (tok +:+ post) /\
    is_space c = true /\
    tok <> EmptyString /\
    no_space tok = true /\
    stops_run post = true.

(** [tok] is captured at the leftmost occurrence of the pattern in [h]. *)
Definition first_occurrence (h tok : string) : Prop :=
  exists pre,
    occurs_after pre h tok /\
    forall pre' tok', occurs_after pre' h tok' ->
                      (String.length pre <= String.length pre')%nat.

(** The header as the interface description words it: exactly [Bearer], one
    space (U+0020), and one or more non-space characters. *)
Definition strict_Bearer_header (h tok : string) : Prop :=
  h = "Bearer " +:+ tok /\ tok <> EmptyString /\ no_space tok = true.

(** Headers that are not of that form. *)
Definition req_trailing_text : Request :=
  mkRequest (header_only "Bearer abc def") ∅ ∅ "GET" None.

Definition req_leading_text : Request :=
  mkRequest (header_only "NotBearer abc") ∅ ∅ "GET" None.

Definition req_tab_separator : Request :=
  mkRequest (header_only ("Bearer" +:+ String "009" "abc")) ∅ ∅ "GET" None.

(** A request with the header of [req_header_abc123], one more query
    parameter and a [user] left by an earlier stage; and a world in which
    the store has been asked before. *)
Definition req_header_abc123_busy : Request :=
  mkRequest (header_only "Bearer abc123") {[ "page" := "2" ]} ∅ "GET"
            (Some (mkIdentity "earlier")).

Definition world_busy : World := mkWorld req_header_abc123_busy [Some "old"].

(** The request of [req_query_xyz], sent with another method. *)
Definition req_query_xyz_DELETE : Request :=
  mkRequest no_header {[ "access_token" := "xyz" ]} ∅ "DELETE" None.

(** A body token sent with POST. *)
Definition req_body_tok_POST : Request :=
  mkRequest no_header ∅ {[ "access_token" := "tok" ]} "POST" None.

(** The token [abc] in a header of its own. *)
Definition req_header_abc : Request :=
  mkRequest (header_only "Bearer abc") ∅ ∅ "GET" None.

(** ** Proof steps *)

(** Case analysis on which carriers are defined. *)
Ltac carriers_cases :=
  repeat match goal with
  | H : _ /\ _ |- _ => destruct H
  | H : _ \/ _ |- _ => destruct H
  | H : is_Some None |- _ => destruct H as [? H]
  end;
  try discriminate; try reflexivity;
  unfold is_Some; eauto 7.

(** * Properties *)

(** ** The callbacks are called once, in tail position *)

Lemma getBearerToken_extract {R} (req : Request)
    (next : option OAuth2Error -> jsstring -> R) :
  getBearerToken req next =
  match extract req with
  | inl e => next (Some e) None
  | inr t => next None t
  end.
Proof.
  unfold extract, getBearerToken.
  destruct (1 <? methodsUsed req)%nat; [reflexivity|].
  destruct (methodsUsed req =? 0)%nat; [reflexivity|].
  destruct (get req "Authorization") as [[|c h]|];
    try destruct (match_Bearer (String c h));
    try destruct (truthy (body req !! "access_token") && _);
    reflexivity.
Qed.

Lemma validateAccessToken_pair {R} this token w
    (next : World -> option OAuth2Error -> R) :
  validateAccessToken this token w next =
  next (fst (validateAccessToken this token w pair))
       (snd (validateAccessToken this token w pair)).
Proof.
  unfold validateAccessToken.
  destruct token as [token|]; [|reflexivity].
  destruct (has_expired this token); reflexivity.
Qed.

Lemma handle_run {R} this w (next : World -> option OAuth2Error -> R) :
  handle this w next = next (fst (run this w)) (snd (run this w)).
Proof.
  unfold run, handle.
  rewrite (getBearerToken_extract (R:=R)), (getBearerToken_extract (R:=World * _)).
  destruct (extract (request w)) as [e|t]; [reflexivity|].
  destruct (getAccessToken (model this) t) as [[err|] token]; [reflexivity|].
  apply validateAccessToken_pair.
Qed.

(** The filter in terms of its two stages. *)
Lemma handle_extract {R} this w (next : World -> option OAuth2Error -> R) :
  handle this w next =
  match extract (request w) with
  | inl e => next w (Some e)
  | inr t =>
      let w1 := mkWorld (request w) (t :: lookups w) in
      match getAccessToken (model this) t with
      | (Some err, _) => next w1 (Some (new_OAuth2Error "server_error" NoDescription (Some err)))
      | (None, token) => validateAccessToken this token w1 next
      end
  end.
Proof.
  unfold handle. rewrite getBearerToken_extract.
  destruct (extract (request w)); reflexivity.
Qed.

Lemma outcome_run this w :
  outcome this w =
  match snd (run this w) with
  | Some e => Rejected e
  | None => Authorized (user (request (fst (run this w))))
  end.
Proof. unfold outcome. apply handle_run. Qed.

(** ** The validator *)

Lemma has_expired_iff this token :
  has_expired this token = true <->
  expires token = None \/ exists e, expires token = Some e /\ e < now this.
Proof.
  unfold has_expired. destruct (expires token) as [e|].
  - rewrite Z.ltb_lt. split.
    + intros H. right. exists e. split; [reflexivity|exact H].
    + intros [H|[e' [H1 H2]]]; [discriminate|]. injection H1 as ->. exact H2.
  - split; [intros _; left; reflexivity|reflexivity].
Qed.

Section Validator.

(** The filter runs on the world [w], and extraction has given the token
    [t]; the store is then asked for [t], which is logged. *)
Context (this : OAuth2Server) (w : World) (t : jsstring).
Hypothesis extracted : extract (request w) = inr t.

Lemma handle_extracted {R} (next : World -> option OAuth2Error -> R) :
  handle this w next =
  match getAccessToken (model this) t with
  | (Some err, _) =>
      next (mkWorld (request w) (t :: lookups w))
           (Some (new_OAuth2Error "server_error" NoDescription (Some err)))
  | (None, token) =>
      validateAccessToken this token (mkWorld (request w) (t :: lookups w)) next
  end.
Proof. rewrite handle_extract, extracted. reflexivity. Qed.

(** C1, amended.  When the store has returned a record for the extracted
    token, the filter rejects with kind [invalid_grant] and message "The
    access token provided has expired." exactly when the record has no
    expiry value or its expiry is strictly earlier than the current time; a
    record whose expiry equals the current time is not rejected as expired,
    and a record with no expiry is always rejected. *)
Theorem C1_rejected_as_expired token :
  getAccessToken (model this) t = (None, Some token) ->
  run this w =
    (mkWorld (request w) (t :: lookups w),
     Some (new_OAuth2Error "invalid_grant"
             (Text "The access token provided has expired.") None))
  <-> (expires token = None \/ exists e, expires token = Some e /\ e < now this).
Proof.
  intros Hl. rewrite <- has_expired_iff.
  unfold run. rewrite handle_extracted, Hl.
  unfold validateAccessToken.
  destruct (has_expired this token); split; try reflexivity; discriminate.
Qed.

(** C4.  When the store returns, for the extracted token, a record whose
    expiry is strictly later than the current time, [next] is called with no
    error, and the request it then sees is the given one with [user] written:
    [user] is [{ id: u }] with [u] the record's [user_id]. *)
Theorem C4_admitted_with_identity {R} token e
    (next : World -> option OAuth2Error -> R) :
  getAccessToken (model this) t = (None, Some token) ->
  expires token = Some e ->
  now this < e ->
  handle this w next =
    next (mkWorld
            (mkRequest (get (request w)) (query (request w)) (body (request w))
                       (method (request w))
                       (Some (mkIdentity (user_id token))))
            (t :: lookups w))
         None /\
  snd (run this w) = None /\
  user (request (fst (run this w))) = Some (mkIdentity (user_id token)) /\
  (forall u, user (request (fst (run this w))) = Some u -> id u = user_id token).
Proof.
  intros Hl He Hlt.
  assert (Hv : has_expired this token = false).
  { unfold has_expired. rewrite He. apply Z.ltb_ge. lia. }
  unfold run. rewrite !handle_extracted, Hl.
  unfold validateAccessToken. rewrite Hv. cbn [fst snd request user set_user].
  repeat split. intros u [= <-]. reflexivity.
Qed.

(** C5.  When the store has no record for the extracted token, the filter
    rejects with kind [invalid_grant] and message "The access token provided
    is invalid."; the request is left as it was. *)
Theorem C5_unknown_token_is_invalid {R}
    (next : World -> option OAuth2Error -> R) :
  getAccessToken (model this) t = (None, None) ->
  handle this w next =
    next (mkWorld (request w) (t :: lookups w))
         (Some (new_OAuth2Error "invalid_grant"
                  (Text "The access token provided is invalid.") None)).
Proof.
  intros Hl. rewrite handle_extracted, Hl. reflexivity.
Qed.

(** C6.  When the store answers the lookup with an error, the filter rejects
    with a Protocol Error of kind [server_error] that has no description to
    expose and wraps the store's error as its cause. *)
Theorem C6_store_failure_is_server_error {R} err token
    (next : World -> option OAuth2Error -> R) :
  getAccessToken (model this) t = (Some err, token) ->
  exists e : OAuth2Error,
    handle this w next = next (mkWorld (request w) (t :: lookups w)) (Some e) /\
    error e = "server_error" /\
    error_description e = NoDescription /\
    exposed_description e = None /\
    cause e = Some err.
Proof.
  intros Hl.
  exists (new_OAuth2Error "server_error" NoDescription (Some err)).
  rewrite handle_extracted, Hl.
  repeat split.
Qed.

End Validator.

Lemma C1_rejected_as_expired_witness :
  run server_after_expiry (fresh req_header_abc123) =
    (mkWorld req_header_abc123 [Some "abc123"],
     Some (new_OAuth2Error "invalid_grant"
             (Text "The access token provided has expired.") None)).
Proof.
  apply (C1_rejected_as_expired server_after_expiry (fresh req_header_abc123)
           (Some "abc123") eq_refl (mkAccessToken (Some 4600) "u1")).
  - reflexivity.
  - right. exists 4600. split; [reflexivity|reflexivity].
Defined.

(** C1 as written fails when the expiry equals the current time: the record
    of [abc123] expires at 4600, the server's [now] is 4600, and the request
    is admitted. *)
Lemma C1_expiry_equal_to_now_is_admitted :
  getAccessToken (model server_at_expiry) (Some "abc123")
    = (None, Some (mkAccessToken (Some (now server_at_expiry)) "u1")) /\
  run server_at_expiry (fresh req_header_abc123)
    = (mkWorld (set_user req_header_abc123 (mkIdentity "u1")) [Some "abc123"], None) /\
  snd (run server_at_expiry (fresh req_header_abc123)) <> Some expired_token.
Proof. split; [reflexivity|split; [reflexivity|discriminate]]. Qed.

Lemma C4_admitted_with_identity_witness :
  handle server_before_expiry (fresh req_header_abc123) pair =
    (mkWorld
       (mkRequest (header_only "Bearer abc123") ∅ ∅ "GET" (Some (mkIdentity "u1")))
       [Some "abc123"],
     None) /\
  snd (run server_before_expiry (fresh req_header_abc123)) = None /\
  user (request (fst (run server_before_expiry (fresh req_header_abc123))))
    = Some (mkIdentity "u1") /\
  (forall u,
     user (request (fst (run server_before_expiry (fresh req_header_abc123))))
       = Some u ->
     id u = "u1").
Proof.
  apply (C4_admitted_with_identity server_before_expiry (fresh req_header_abc123)
           (Some "abc123") eq_refl (mkAccessToken (Some 4600) "u1") 4600 pair).
  - reflexivity.
  - reflexivity.
  - reflexivity.
Defined.

Lemma C5_unknown_token_is_invalid_witness :
  handle server_before_expiry (fresh req_query_xyz) pair =
    (mkWorld req_query_xyz [Some "xyz"],
     Some (new_OAuth2Error "invalid_grant"
             (Text "The access token provided is invalid.") None)).
Proof.
  apply (C5_unknown_token_is_invalid server_before_expiry (fresh req_query_xyz)
           (Some "xyz") eq_refl pair).
  reflexivity.
Defined.

Lemma C6_store_failure_is_server_error_witness :
  exists e : OAuth2Error,
    handle (mkOAuth2Server broken_store 1000) (fresh req_header_abc123) pair
      = (mkWorld req_header_abc123 [Some "abc123"], Some e) /\
    error e = "server_error" /\
    error_description e = NoDescription /\
    exposed_description e = None /\
    cause e = Some (mkError "connection refused").
Proof.
  apply (C6_store_failure_is_server_error (mkOAuth2Server broken_store 1000)
           (fresh req_header_abc123) (Some "abc123") eq_refl
           (mkError "connection refused") None pair).
  reflexivity.
Defined.

(** ** The extractor *)

(** Capture group 1 of a match is never empty. *)
Lemma match_here_nonempty s tok : match_here s = Some tok -> tok <> EmptyString.
Proof.
  unfold match_here.
  destruct (skip_literal "Bearer" s) as [[|c rest]|]; try discriminate.
  destruct (is_space c); try discriminate.
  destruct (nonspace_run rest); try discriminate.
  intros [= <-]. discriminate.
Qed.

Lemma match_Bearer_nonempty s tok : match_Bearer s = Some tok -> tok <> EmptyString.
Proof.
  induction s as [|c s IH]; cbn [match_Bearer].
  - destruct (match_here "") eqn:E; [|discriminate].
    intros [= <-]. exact (match_here_nonempty _ _ E).
  - destruct (match_here (String c s)) eqn:E; [|exact IH].
    intros [= <-]. exact (match_here_nonempty _ _ E).
Qed.

(** The decision table of [getBearerToken], by carrier. *)
Lemma extract_table req :
  extract req =
  match get req "Authorization", query req !! "access_token",
        body req !! "access_token" with
  | None, None, None => inl token_not_found
  | Some EmptyString, None, None => inr None
  | Some h, None, None =>
      match match_Bearer h with
      | Some tok => inr (Some tok)
      | None => inl malformed_header
      end
  | None, Some q, None => inr (Some q)
  | None, None, Some EmptyString => inr None
  | None, None, Some b =>
      if String.eqb (method req) "POST" then inr (Some b)
      else inl method_must_be_POST
  | _, _, _ => inl only_one_method
  end.
Proof.
  unfold extract, getBearerToken, methodsUsed.
  destruct (get req "Authorization") as [[|c h]|];
    destruct (query req !! "access_token") as [q|];
    destruct (body req !! "access_token") as [[|c' b]|];
    try destruct (match_Bearer (String c h)) as [[|d tok]|] eqn:E;
    try (apply match_Bearer_nonempty in E; congruence);
    try destruct (String.eqb (method req) "POST");
    reflexivity.
Qed.

Lemma methodsUsed_table req :
  methodsUsed req =
  match get req "Authorization", query req !! "access_token",
        body req !! "access_token" with
  | None, None, None => 0
  | Some _, None, None | None, Some _, None | None, None, Some _ => 1
  | Some _, Some _, Some _ => 3
  | _, _, _ => 2
  end%nat.
Proof.
  unfold methodsUsed.
  destruct (get req "Authorization"), (query req !! "access_token"),
    (body req !! "access_token"); reflexivity.
Qed.

(** C3, amended.  A carrier counts as used when its value is defined, the
    empty string included.  Extraction fails with kind [invalid_request] and
    message "The access token was not found" exactly when none of the three
    carriers is defined, and with "Only one method may be used to
    authenticate at a time (Auth header, GET or POST)." exactly when two or
    more are defined, whatever the header's format and the method; the two
    later errors arise only when exactly one carrier is defined. *)
Theorem C3_count_of_defined_carriers req :
  (extract req =
     inl (new_OAuth2Error "invalid_request" (Text "The access token was not found") None)
   <-> get req "Authorization" = None /\
       query req !! "access_token" = None /\
       body req !! "access_token" = None) /\
  (extract req =
     inl (new_OAuth2Error "invalid_request"
            (Text "Only one method may be used to authenticate at a time (Auth header, GET or POST).")
            None)
   <-> (is_Some (get req "Authorization") /\ is_Some (query req !! "access_token")) \/
       (is_Some (get req "Authorization") /\ is_Some (body req !! "access_token")) \/
       (is_Some (query req !! "access_token") /\ is_Some (body req !! "access_token"))) /\
  (extract req = inl malformed_header \/ extract req = inl method_must_be_POST ->
   methodsUsed req = 1%nat).
Proof.
  rewrite extract_table, methodsUsed_table.
  destruct (get req "Authorization") as [[|c h]|];
    destruct (query req !! "access_token") as [q|];
    destruct (body req !! "access_token") as [[|c' b]|];
    try destruct (match_Bearer (String c h));
    try destruct (String.eqb (method req) "POST");
    repeat split; intros; carriers_cases.
Qed.

(** C3 as written fails on a carrier that is defined and empty: a request
    whose only carrier is an empty Authorization header has no carrier that
    is defined and non-empty, yet the source counts one method and hands an
    undefined token over instead of failing. *)
Lemma C3_empty_header_is_counted :
  nonempty_carriers req_empty_header = 0%nat /\
  methodsUsed req_empty_header = 1%nat /\
  extract req_empty_header = inr None /\
  extract req_empty_header <> inl token_not_found.
Proof. repeat split. discriminate. Qed.



(** ** The whole filter *)

(** What [handle] hands to [next], by stage. *)
Lemma run_cases this w :
  (exists e, extract (request w) = inl e /\ run this w = (w, Some e)) \/
  (exists t e, extract (request w) = inr t /\
     run this w = (mkWorld (request w) (t :: lookups w), Some e)) \/
  (exists t token, extract (request w) = inr t /\
     getAccessToken (model this) t = (None, Some token) /\
     has_expired this token = false /\
     run this w =
       (mkWorld (set_user (request w) (mkIdentity (user_id token))) (t :: lookups w),
        None)).
Proof.
  unfold run. rewrite handle_extract.
  destruct (extract (request w)) as [e|t]; [left; eauto|right].
  cbn zeta.
  destruct (getAccessToken (model this) t) as [[err|] [token|]] eqn:Hl;
    unfold validateAccessToken; eauto.
  destruct (has_expired this token) eqn:He; eauto 8.
Qed.

(** C8.  Whatever the request and the store, the request [next] receives
    has the header accessor, the query and body mappings and the method of
    the request [handle] was given; when [next] receives an error the whole
    request, [user] included, is the one given; [user] is written only when
    [next] receives no error. *)
Theorem C8_only_user_is_written this w :
  get (request (fst (run this w))) = get (request w) /\
  query (request (fst (run this w))) = query (request w) /\
  body (request (fst (run this w))) = body (request w) /\
  method (request (fst (run this w))) = method (request w) /\
  (forall e, snd (run this w) = Some e -> request (fst (run this w)) = request w) /\
  (snd (run this w) = None ->
   exists token, request (fst (run this w)) =
                 set_user (request w) (mkIdentity (user_id token))).
Proof.
  destruct (run_cases this w) as [(e & _ & ->)|[(t & e & _ & ->)|(t & token & _ & _ & _ & ->)]];
    cbn [fst snd request set_user get query body method];
    repeat split; intros; try discriminate; eauto.
Qed.

(** The extractor reads neither [user] nor the log of lookups. *)
Lemma extract_set_user req u : extract (set_user req u) = extract req.
Proof. rewrite !extract_table. reflexivity. Qed.

(** C9.  Running the filter again, on the request as the first run left it
    and with the same store and the same [now], gives the same outcome: the
    same error or none, the same identity, the same request. *)
Theorem C9_second_run_same_outcome this w :
  outcome this (fst (run this w)) = outcome this w /\
  snd (run this (fst (run this w))) = snd (run this w) /\
  request (fst (run this (fst (run this w)))) = request (fst (run this w)).
Proof.
  assert (Hrun : snd (run this (fst (run this w))) = snd (run this w) /\
                 request (fst (run this (fst (run this w)))) = request (fst (run this w))).
  { destruct (run_cases this w) as [(e & Hx & Hr)|[(t & e & Hx & Hr)|(t & token & Hx & Hl & He & Hr)]];
      rewrite Hr; cbn [fst snd].
    - rewrite Hr. split; reflexivity.
    - unfold run. rewrite !handle_extract. cbn [request]. rewrite Hx. cbn zeta.
      unfold run in Hr. rewrite handle_extract, Hx in Hr. cbn zeta in Hr.
      destruct (getAccessToken (model this) t) as [[err|] [token|]];
        unfold validateAccessToken in *; try (injection Hr as <-; split; reflexivity).
      destruct (has_expired this token); [|discriminate Hr].
      injection Hr as <-. split; reflexivity.
    - unfold run. rewrite !handle_extract. cbn [request].
      rewrite extract_set_user, Hx. cbn zeta. rewrite Hl.
      unfold validateAccessToken. rewrite He. split; reflexivity. }
  destruct Hrun as [Hs Hq]. repeat split; try assumption.
  rewrite !outcome_run, Hs, Hq. reflexivity.
Qed.

(** C10.  When extraction fails with [e], [next] receives the world
    untouched (no lookup is logged) and the error [e], for every server
    object: two stores cannot be told apart. *)
Theorem C10_extraction_failure_ignores_store {R} w e
    (next : World -> option OAuth2Error -> R) :
  extract (request w) = inl e ->
  forall this1 this2,
    handle this1 w next = next w (Some e) /\
    handle this2 w next = next w (Some e) /\
    outcome this1 w = Rejected e /\
    outcome this2 w = Rejected e /\
    lookups (fst (run this1 w)) = lookups w.
Proof.
  intros Hx this1 this2.
  unfold outcome, run. rewrite !handle_extract, Hx. repeat split.
Qed.

Lemma C10_extraction_failure_ignores_store_witness :
  handle (mkOAuth2Server store_accepts_all 1000) (fresh req_Basic) pair
    = (fresh req_Basic, Some malformed_header) /\
  handle (mkOAuth2Server broken_store 1000) (fresh req_Basic) pair
    = (fresh req_Basic, Some malformed_header) /\
  outcome (mkOAuth2Server store_accepts_all 1000) (fresh req_Basic)
    = Rejected malformed_header /\
  outcome (mkOAuth2Server broken_store 1000) (fresh req_Basic)
    = Rejected malformed_header /\
  lookups (fst (run (mkOAuth2Server store_accepts_all 1000) (fresh req_Basic))) = [].
Proof.
  apply (C10_extraction_failure_ignores_store (fresh req_Basic) malformed_header pair).
  reflexivity.
Defined.

(** ** The pattern [/Bearer\s(\S+)/] on the text *)

Lemma append_nil_l (s : string) : "" +:+ s = s.
Proof. reflexivity. Qed.

Lemma append_cons a (s t : string) : String a s +:+ t = String a (s +:+ t).
Proof. reflexivity. Qed.

Lemma skip_literal_spec l s r : skip_literal l s = Some r <-> s = l +:+ r.
Proof.
  revert s. induction l as [|a l IH]; intros s; cbn [skip_literal].
  - rewrite append_nil_l. split; [intros [= ->]|intros ->]; reflexivity.
  - rewrite append_cons. destruct s as [|b s]; [split; discriminate|].
    destruct (Ascii.eqb_spec a b) as [->|Hne].
    + rewrite IH. split; [intros ->|intros [= ->]]; reflexivity.
    + split; [discriminate|intros [= E _]; congruence].
Qed.

Lemma nonspace_run_app tok post :
  no_space tok = true -> stops_run post = true -> nonspace_run (tok +:+ post) = tok.
Proof.
  intros Htok Hpost. induction tok as [|c tok IH].
  - rewrite append_nil_l. destruct post as [|d post]; [reflexivity|].
    cbn in *. rewrite Hpost. reflexivity.
  - rewrite append_cons. cbn in *.
    apply andb_true_iff in Htok as [Hc Htok]. apply negb_true_iff in Hc.
    rewrite Hc, (IH Htok). reflexivity.
Qed.

Lemma nonspace_run_decompose s :
  exists post,
    s = nonspace_run s +:+ post /\
    no_space (nonspace_run s) = true /\
    stops_run post = true.
Proof.
  induction s as [|c s (post & Hs & Hn & Hp)].
  - exists EmptyString. repeat split.
  - cbn [nonspace_run]. destruct (is_space c) eqn:Hc.
    + exists (String c s). repeat split. exact Hc.
    + exists post. rewrite append_cons, <- Hs. cbn [no_space]. rewrite Hc, Hn.
      repeat split. exact Hp.
Qed.

Lemma match_here_spec s tok : match_here s = Some tok <-> occurs_after "" s tok.
Proof.
  unfold match_here, occurs_after. split.
  - destruct (skip_literal "Bearer" s) as [[|c rest]|] eqn:Hl; try discriminate.
    apply skip_literal_spec in Hl.
    destruct (is_space c) eqn:Hc; [|discriminate].
    destruct (nonspace_run_decompose rest) as (post & Hrest & Hn & Hp).
    destruct (nonspace_run rest) as [|d run]; [discriminate|].
    intros [= <-]. exists c, post. rewrite append_nil_l, <- Hrest.
    repeat split; try assumption. discriminate.
  - intros (c & post & -> & Hc & Hne & Hn & Hp). rewrite append_nil_l.
    rewrite (proj2 (skip_literal_spec "Bearer" _ _) eq_refl), Hc.
    rewrite (nonspace_run_app _ _ Hn Hp).
    destruct tok; [contradiction|reflexivity].
Qed.

Lemma occurs_after_cons a pre b h tok :
  occurs_after (String a pre) (String b h) tok <-> a = b /\ occurs_after pre h tok.
Proof.
  unfold occurs_after. split.
  - intros (c & post & E & H). rewrite append_cons in E. injection E as -> ->. eauto.
  - intros [-> (c & post & -> & H)]. exists c, post. rewrite append_cons. eauto.
Qed.

Lemma occurs_after_empty pre tok : ~ occurs_after pre "" tok.
Proof.
  intros (c & post & E & _). destruct pre; discriminate E.
Qed.

Lemma match_Bearer_None s :
  match_Bearer s = None <-> forall pre tok, ~ occurs_after pre s tok.
Proof.
  induction s as [|a s IH]; cbn [match_Bearer].
  - split; [intros _ pre tok; apply occurs_after_empty|reflexivity].
  - destruct (match_here (String a s)) as [t|] eqn:Hh.
    + split; [discriminate|]. intros H. apply match_here_spec in Hh.
      destruct (H _ _ Hh).
    + rewrite IH. split.
      * intros H [|b pre] tok Ho.
        -- apply match_here_spec in Ho. congruence.
        -- apply occurs_after_cons in Ho as [_ Ho]. exact (H _ _ Ho).
      * intros H pre tok Ho. apply (H (String a pre) tok).
        apply occurs_after_cons. split; [reflexivity|exact Ho].
Qed.

Lemma match_Bearer_Some s tok :
  match_Bearer s = Some tok <-> first_occurrence s tok.
Proof.
  unfold first_occurrence. induction s as [|a s IH]; cbn [match_Bearer].
  - split; [discriminate|]. intros (pre & Ho & _). destruct (occurs_after_empty _ _ Ho).
  - destruct (match_here (String a s)) as [t|] eqn:Hh.
    + split.
      * intros [= <-]. exists EmptyString. split; [apply match_here_spec, Hh|].
        intros pre' tok' _. cbn. lia.
      * intros (pre & Ho & Hmin).
        assert (Ht : occurs_after "" (String a s) t) by apply match_here_spec, Hh.
        specialize (Hmin _ _ Ht). destruct pre; [|cbn in Hmin; lia].
        apply match_here_spec in Ho. congruence.
    + rewrite IH. split.
      * intros (pre & Ho & Hmin). exists (String a pre). split.
        -- apply occurs_after_cons. split; [reflexivity|exact Ho].
        -- intros [|b pre'] tok' Ho'.
           ++ apply match_here_spec in Ho'. congruence.
           ++ apply occurs_after_cons in Ho' as [_ Ho']. cbn.
              specialize (Hmin _ _ Ho'). lia.
      * intros ([|b pre] & Ho & Hmin).
        -- apply match_here_spec in Ho. congruence.
        -- apply occurs_after_cons in Ho as [_ Ho]. exists pre. split; [exact Ho|].
           intros pre' tok' Ho'.
           assert (Ho'' : occurs_after (String a pre') (String a s) tok')
             by (apply occurs_after_cons; split; [reflexivity|exact Ho']).
           specialize (Hmin _ _ Ho''). cbn in Hmin. lia.
Qed.

Lemma append_nil_r (s : string) : s +:+ "" = s.
Proof.
  induction s as [|a s IH]; [reflexivity|]. rewrite append_cons, IH. reflexivity.
Qed.

Lemma strict_Bearer_header_occurs h tok :
  strict_Bearer_header h tok -> occurs_after "" h tok.
Proof.
  intros (-> & Hne & Hn). exists " "%char, EmptyString.
  rewrite append_nil_r. repeat split; assumption.
Qed.

(** C2, amended.  For a request whose only carrier is a non-empty
    Authorization header [h]: extraction succeeds with token [tok] exactly
    when [tok] is the capture of the leftmost place in [h] where the
    case-sensitive literal [Bearer] is followed by one space character (a
    space, a tab, a line break, ...) and then by a non-empty, maximal run of
    non-space characters, wherever in [h] that place is; it fails with kind
    [invalid_request] and message "Malformed auth header" exactly when [h]
    has no such place.  A header that is exactly [Bearer], one space and a
    non-empty token without space characters is accepted with that token. *)
Theorem C2_header_pattern req h :
  get req "Authorization" = Some h ->
  h <> EmptyString ->
  query req !! "access_token" = None ->
  body req !! "access_token" = None ->
  (forall tok, extract req = inr (Some tok) <-> first_occurrence h tok) /\
  (extract req =
     inl (new_OAuth2Error "invalid_request" (Text "Malformed auth header") None)
   <-> forall pre tok, ~ occurs_after pre h tok) /\
  (forall tok, strict_Bearer_header h tok -> extract req = inr (Some tok)).
Proof.
  intros Hh Hne Hq Hb. rewrite extract_table, Hh, Hq, Hb.
  destruct h as [|c h]; [contradiction|].
  rewrite <- match_Bearer_None.
  destruct (match_Bearer (String c h)) as [t|] eqn:Hm; repeat split.
  - intros [= <-]. apply match_Bearer_Some, Hm.
  - intros Hf. apply match_Bearer_Some in Hf. congruence.
  - discriminate.
  - discriminate.
  - intros tok Hs. apply strict_Bearer_header_occurs, match_here_spec in Hs.
    cbn [match_Bearer] in Hm. rewrite Hs in Hm. congruence.
  - discriminate.
  - intros Hf. apply match_Bearer_Some in Hf. congruence.
  - intros tok Hs. apply strict_Bearer_header_occurs, match_here_spec in Hs.
    cbn [match_Bearer] in Hm. rewrite Hs in Hm. discriminate.
Qed.

Lemma C2_header_pattern_witness :
  extract req_header_abc123 = inr (Some "abc123").
Proof.
  apply (C2_header_pattern req_header_abc123 "Bearer abc123").
  - reflexivity.
  - discriminate.
  - reflexivity.
  - reflexivity.
  - repeat split. discriminate.
Defined.

(** C2 as written fails, since the pattern is tried at every index of the
    header and [\s] is any space character: text after the token, text
    before [Bearer] and a tab as separator are all accepted, with token
    [abc], though none of the three headers is [Bearer], one space and a
    token. *)
Lemma C2_pattern_is_not_anchored :
  extract req_trailing_text = inr (Some "abc") /\
  ~ (exists tok, strict_Bearer_header "Bearer abc def" tok) /\
  extract req_leading_text = inr (Some "abc") /\
  ~ (exists tok, strict_Bearer_header "NotBearer abc" tok) /\
  extract req_tab_separator = inr (Some "abc") /\
  ~ (exists tok, strict_Bearer_header ("Bearer" +:+ String "009" "abc") tok).
Proof.
  repeat split; try (intros (tok & E & _ & Hn); vm_compute in E).
  - injection E as <-. discriminate Hn.
  - discriminate E.
  - discriminate E.
Qed.

(** ** The scenarios of the specification *)

Example scenario_A :
  run server_before_expiry (fresh req_header_abc123) =
    (mkWorld (set_user req_header_abc123 (mkIdentity "u1")) [Some "abc123"], None).
Proof. reflexivity. Qed.

Example scenario_B :
  run server_before_expiry (fresh req_query_xyz) =
    (mkWorld req_query_xyz [Some "xyz"], Some invalid_token).
Proof. reflexivity. Qed.

Example scenario_C :
  run server_before_expiry (fresh req_header_and_query) =
    (fresh req_header_and_query, Some only_one_method).
Proof. reflexivity. Qed.

Example scenario_D :
  run server_before_expiry (fresh req_body_tok_GET) =
    (fresh req_body_tok_GET, Some method_must_be_POST).
Proof. reflexivity. Qed.

Example scenario_E :
  run server_before_expiry (fresh req_Basic) =
    (fresh req_Basic, Some malformed_header).
Proof. reflexivity. Qed.

(** * Further properties of the filter *)

(** What [handle] hands to [next], stage by stage. *)
Lemma run_table this w :
  run this w =
  match extract (request w) with
  | inl e => (w, Some e)
  | inr t =>
      match getAccessToken (model this) t with
      | (Some err, _) =>
          (mkWorld (request w) (t :: lookups w),
           Some (new_OAuth2Error "server_error" NoDescription (Some err)))
      | (None, None) => (mkWorld (request w) (t :: lookups w), Some invalid_token)
      | (None, Some token) =>
          if has_expired this token
          then (mkWorld (request w) (t :: lookups w), Some expired_token)
          else (mkWorld (set_user (request w) (mkIdentity (user_id token)))
                        (t :: lookups w), None)
      end
  end.
Proof.
  unfold run. rewrite handle_extract.
  destruct (extract (request w)) as [e|t]; [reflexivity|]. cbn zeta.
  destruct (getAccessToken (model this) t) as [[err|] [token|]];
    unfold validateAccessToken; try destruct (has_expired this token);
    reflexivity.
Qed.

Lemma extract_error_cases req e :
  extract req = inl e ->
  e = only_one_method \/ e = token_not_found \/
  e = malformed_header \/ e = method_must_be_POST.
Proof.
  rewrite extract_table.
  destruct (get req "Authorization") as [[|c h]|];
    destruct (query req !! "access_token") as [q|];
    destruct (body req !! "access_token") as [[|c' b]|];
    try destruct (match_Bearer (String c h));
    try destruct (String.eqb (method req) "POST");
    intros [= <-]; auto.
Qed.

(** X1.  [next] receives no error exactly when extraction gave a token, the
    store answered the lookup of that token with a record and no error, and
    the record has an expiry that is not earlier than [now]; the request
    then carries that record's [user_id]. *)
Theorem X1_admitted_iff_valid_record this w :
  (snd (run this w) = None <->
   exists t token e,
     extract (request w) = inr t /\
     getAccessToken (model this) t = (None, Some token) /\
     expires token = Some e /\
     now this <= e) /\
  (forall t token,
     extract (request w) = inr t ->
     getAccessToken (model this) t = (None, Some token) ->
     snd (run this w) = None ->
     user (request (fst (run this w))) = Some (mkIdentity (user_id token))).
Proof.
  rewrite run_table. split.
  - destruct (extract (request w)) as [e0|t].
    + split; [discriminate|]. intros (t & token & e & Hx & _). discriminate Hx.
    + destruct (getAccessToken (model this) t) as [[err|] [token|]] eqn:Hl.
      * split; [discriminate|]. intros (t' & tk & e & [= <-] & Hl' & _). congruence.
      * split; [discriminate|]. intros (t' & tk & e & [= <-] & Hl' & _). congruence.
      * unfold has_expired. destruct (expires token) as [e|] eqn:He.
        -- destruct (Z.ltb_spec e (now this)) as [Hlt|Hge]; cbn [snd]; split.
           ++ discriminate.
           ++ intros (t' & tk & e' & [= <-] & Hl' & He' & Hle).
              rewrite Hl in Hl'. injection Hl' as <-. rewrite He in He'.
              injection He' as <-. lia.
           ++ intros _. exists t, token, e. repeat split; assumption.
           ++ reflexivity.
        -- split; [discriminate|].
           intros (t' & tk & e' & [= <-] & Hl' & He' & _).
           rewrite Hl in Hl'. injection Hl' as <-. congruence.
      * split; [discriminate|]. intros (t' & tk & e & [= <-] & Hl' & _). congruence.
  - intros t token Hx Hl. rewrite Hx, Hl.
    destruct (has_expired this token); [discriminate|reflexivity].
Qed.

(** X2.  The store is asked at most once for a request: exactly once, for
    the extracted token, when extraction succeeds (whatever the answer and
    the verdict on the record), and not at all when extraction fails. *)
Theorem X2_store_asked_once_for_extracted_token this w :
  lookups (fst (run this w)) =
  match extract (request w) with
  | inl _ => lookups w
  | inr t => t :: lookups w
  end.
Proof.
  rewrite run_table. destruct (extract (request w)) as [e|t]; [reflexivity|].
  destruct (getAccessToken (model this) t) as [[err|] [token|]]; try reflexivity.
  destruct (has_expired this token); reflexivity.
Qed.

(** Extraction reads the Authorization header, the two [access_token]
    parameters and, when the body parameter is truthy, the method. *)
Lemma extract_agree req1 req2 :
  get req1 "Authorization" = get req2 "Authorization" ->
  query req1 !! "access_token" = query req2 !! "access_token" ->
  body req1 !! "access_token" = body req2 !! "access_token" ->
  truthy (body req1 !! "access_token") = false \/ method req1 = method req2 ->
  extract req1 = extract req2.
Proof.
  intros Hh Hq Hb Hm. rewrite !extract_table, <- Hh, <- Hq, <- Hb.
  destruct Hm as [Hf| ->]; [|reflexivity].
  destruct (get req1 "Authorization") as [[|c h]|];
    destruct (query req1 !! "access_token") as [q|];
    destruct (body req1 !! "access_token") as [[|c' b]|];
    try discriminate Hf; reflexivity.
Qed.

Lemma outcome_agree this w1 w2 :
  extract (request w1) = extract (request w2) -> outcome this w1 = outcome this w2.
Proof.
  intros Hx. rewrite !outcome_run, !run_table, <- Hx.
  destruct (extract (request w1)) as [e|t]; [reflexivity|].
  destruct (getAccessToken (model this) t) as [[err|] [token|]]; try reflexivity.
  destruct (has_expired this token); reflexivity.
Qed.

(** X3.  The method is read only for a body token: two requests with the
    same Authorization header and the same query [access_token], neither
    with a body [access_token], have the same outcome whatever their
    methods, their other parameters and their [user]. *)
Theorem X3_method_ignored_without_body_token this w1 w2 :
  get (request w1) "Authorization" = get (request w2) "Authorization" ->
  query (request w1) !! "access_token" = query (request w2) !! "access_token" ->
  body (request w1) !! "access_token" = None ->
  body (request w2) !! "access_token" = None ->
  outcome this w1 = outcome this w2.
Proof.
  intros Hh Hq Hb1 Hb2. apply outcome_agree, extract_agree; try assumption.
  - congruence.
  - left. rewrite Hb1. reflexivity.
Qed.

Lemma X3_method_ignored_without_body_token_witness :
  outcome server_before_expiry (fresh req_query_xyz) =
  outcome server_before_expiry (fresh req_query_xyz_DELETE).
Proof.
  apply (X3_method_ignored_without_body_token server_before_expiry
           (fresh req_query_xyz) (fresh req_query_xyz_DELETE)).
  - reflexivity.
  - reflexivity.
  - reflexivity.
  - reflexivity.
Defined.

(** X4.  A request whose only carrier is a non-empty body [access_token]
    passes extraction, with that very value as token, exactly when its
    method is the string [POST]. *)
Theorem X4_body_token_accepted_iff_POST req b :
  get req "Authorization" = None ->
  query req !! "access_token" = None ->
  body req !! "access_token" = Some b ->
  b <> EmptyString ->
  (extract req = inr (Some b) <-> method req = "POST").
Proof.
  intros Hh Hq Hb Hne. rewrite extract_table, Hh, Hq, Hb.
  destruct b as [|c b]; [contradiction|].
  destruct (String.eqb_spec (method req) "POST") as [Hm|Hm]; split; intros H.
  - exact Hm.
  - reflexivity.
  - discriminate H.
  - contradiction.
Qed.

Lemma X4_body_token_accepted_iff_POST_witness :
  extract req_body_tok_POST = inr (Some "tok") <-> method req_body_tok_POST = "POST".
Proof.
  apply (X4_body_token_accepted_iff_POST req_body_tok_POST "tok").
  - reflexivity.
  - reflexivity.
  - reflexivity.
  - discriminate.
Defined.

(** X5.  Extraction succeeds with an undefined token, which [handle] then
    passes to the store, exactly when the only defined carrier is an empty
    Authorization header or an empty body [access_token]; for the empty body
    parameter the method is not checked. *)
Theorem X5_undefined_token_iff_lone_empty_carrier req :
  extract req = inr None <->
  (get req "Authorization" = Some EmptyString /\
   query req !! "access_token" = None /\
   body req !! "access_token" = None) \/
  (get req "Authorization" = None /\
   query req !! "access_token" = None /\
   body req !! "access_token" = Some EmptyString).
Proof.
  rewrite extract_table.
  destruct (get req "Authorization") as [[|c h]|];
    destruct (query req !! "access_token") as [q|];
    destruct (body req !! "access_token") as [[|c' b]|];
    try destruct (match_Bearer (String c h));
    try destruct (String.eqb (method req) "POST");
    split; intros H; carriers_cases.
Qed.

Lemma append_assoc (a b c : string) : (a +:+ b) +:+ c = a +:+ (b +:+ c).
Proof.
  induction a as [|x a IH]; [reflexivity|]. rewrite !append_cons, IH. reflexivity.
Qed.

(** X6.  A token taken from the Authorization header is never empty, holds
    no space character, and is a piece of the header value. *)
Theorem X6_header_token_shape req h tok :
  get req "Authorization" = Some h ->
  extract req = inr (Some tok) ->
  tok <> EmptyString /\
  no_space tok = true /\
  exists pre post, h = pre +:+ tok +:+ post.
Proof.
  intros Hh. rewrite extract_table, Hh.
  destruct (query req !! "access_token") as [q|];
    destruct (body req !! "access_token") as [b|];
    destruct h as [|c h]; try discriminate.
  destruct (match_Bearer (String c h)) as [t|] eqn:Hm; [|discriminate].
  intros [= <-]. apply match_Bearer_Some in Hm.
  destruct Hm as (pre & (d & post & E & _ & Hne & Hn & _) & _).
  repeat split; try assumption.
  exists (pre +:+ "Bearer" +:+ String d ""), post.
  rewrite E, !append_assoc. reflexivity.
Qed.

Lemma X6_header_token_shape_witness :
  "abc" <> EmptyString /\
  no_space "abc" = true /\
  exists pre post, "Bearer abc def" = pre +:+ "abc" +:+ post.
Proof.
  apply (X6_header_token_shape req_trailing_text "Bearer abc def" "abc").
  - reflexivity.
  - reflexivity.
Defined.

(** X7.  Whatever error [next] receives, its kind is [invalid_request],
    [invalid_grant] or [server_error].  The kind is [invalid_request]
    exactly when the error comes from extraction, in which case the store
    has not been asked; and the error has no description, and wraps a cause,
    exactly when its kind is [server_error]. *)
Theorem X7_error_kinds this w e :
  snd (run this w) = Some e ->
  (error e = "invalid_request" \/ error e = "invalid_grant" \/
   error e = "server_error") /\
  (error e = "invalid_request" <-> extract (request w) = inl e) /\
  (error e = "invalid_request" -> fst (run this w) = w) /\
  (error e = "server_error" <-> error_description e = NoDescription) /\
  (error e = "server_error" <-> exists err, cause e = Some err).
Proof.
  rewrite run_table.
  destruct (extract (request w)) as [e0|t] eqn:Hx.
  - intros [= <-].
    destruct (extract_error_cases _ _ Hx) as [-> | [-> | [-> | ->]]];
      repeat split; intros; auto; try discriminate;
      try match goal with H : exists _, _ |- _ => destruct H; discriminate end.
  - destruct (getAccessToken (model this) t) as [[err|] [token|]];
      try destruct (has_expired this token);
      intros [= <-]; repeat split; intros; eauto; try discriminate;
      try match goal with H : exists _, _ |- _ => destruct H; discriminate end.
Qed.

Lemma X7_error_kinds_witness :
  (error malformed_header = "invalid_request" \/
   error malformed_header = "invalid_grant" \/
   error malformed_header = "server_error") /\
  (error malformed_header = "invalid_request" <->
   extract (request (fresh req_Basic)) = inl malformed_header) /\
  (error malformed_header = "invalid_request" ->
   fst (run server_before_expiry (fresh req_Basic)) = fresh req_Basic) /\
  (error malformed_header = "server_error" <->
   error_description malformed_header = NoDescription) /\
  (error malformed_header = "server_error" <->
   exists err, cause malformed_header = Some err).
Proof.
  apply (X7_error_kinds server_before_expiry (fresh req_Basic) malformed_header).
  reflexivity.
Defined.

(** X8.  The filter reads four things of a request: the Authorization
    header, the query and body [access_token], and the method.  Two requests
    that agree on them have the same outcome, whatever their other headers
    and parameters, the [user] an earlier stage left, and the calls already
    made to the store. *)
Theorem X8_outcome_depends_on_read_fields this w1 w2 :
  get (request w1) "Authorization" = get (request w2) "Authorization" ->
  query (request w1) !! "access_token" = query (request w2) !! "access_token" ->
  body (request w1) !! "access_token" = body (request w2) !! "access_token" ->
  method (request w1) = method (request w2) ->
  outcome this w1 = outcome this w2.
Proof.
  intros Hh Hq Hb Hm. apply outcome_agree, extract_agree; try assumption.
  right. exact Hm.
Qed.

Lemma X8_outcome_depends_on_read_fields_witness :
  outcome server_before_expiry (fresh req_header_abc123) =
  outcome server_before_expiry world_busy.
Proof.
  apply (X8_outcome_depends_on_read_fields server_before_expiry
           (fresh req_header_abc123) world_busy).
  - reflexivity.
  - reflexivity.
  - reflexivity.
  - reflexivity.
Defined.

(** X9.  Admission is monotone in time: a request that is admitted at some
    [now] is admitted, with the same identity, by a server with the same
    store and an earlier [now]. *)
Theorem X9_admitted_later_admitted_earlier this1 this2 w :
  model this1 = model this2 ->
  now this1 <= now this2 ->
  snd (run this2 w) = None ->
  run this1 w = run this2 w.
Proof.
  intros Hm Hle. rewrite !run_table, Hm.
  destruct (extract (request w)) as [e|t]; [reflexivity|].
  destruct (getAccessToken (model this2) t) as [[err|] [token|]]; try reflexivity.
  unfold has_expired. destruct (expires token) as [e|]; [|discriminate].
  destruct (Z.ltb_spec e (now this2)); [discriminate|].
  destruct (Z.ltb_spec e (now this1)); [lia|reflexivity].
Qed.

Lemma X9_admitted_later_admitted_earlier_witness :
  run server_before_expiry (fresh req_header_abc123) =
  run server_at_expiry (fresh req_header_abc123).
Proof.
  apply (X9_admitted_later_admitted_earlier server_before_expiry server_at_expiry
           (fresh req_header_abc123)).
  - reflexivity.
  - discriminate.
  - reflexivity.
Defined.

Lemma match_Bearer_here s tok : match_here s = Some tok -> match_Bearer s = Some tok.
Proof.
  intros H. destruct s; cbn [match_Bearer]; rewrite H; reflexivity.
Qed.

(** X10.  A token taken from an Authorization header can be presented again
    in the plain form: a request whose only carrier is the header [Bearer],
    one space and that token yields the same token. *)
Theorem X10_header_token_round_trip req h tok req' :
  get req "Authorization" = Some h ->
  extract req = inr (Some tok) ->
  get req' "Authorization" = Some ("Bearer " +:+ tok) ->
  query req' !! "access_token" = None ->
  body req' !! "access_token" = None ->
  extract req' = inr (Some tok).
Proof.
  intros Hh Hx Hh' Hq' Hb'.
  assert (Htok : tok <> EmptyString /\ no_space tok = true).
  { revert Hx. rewrite extract_table, Hh.
    destruct (query req !! "access_token") as [q|];
      destruct (body req !! "access_token") as [b|];
      destruct h as [|c h]; try discriminate.
    destruct (match_Bearer (String c h)) as [t|] eqn:Hm; [|discriminate].
    intros [= <-]. apply match_Bearer_Some in Hm.
    destruct Hm as (pre & (d & post & _ & _ & Hne & Hn & _) & _).
    split; assumption. }
  destruct Htok as [Hne Hn].
  assert (Hm : match_Bearer ("Bearer " +:+ tok) = Some tok).
  { apply match_Bearer_here, match_here_spec, strict_Bearer_header_occurs.
    repeat split; assumption. }
  rewrite extract_table, Hh', Hq', Hb'.
  change ("Bearer " +:+ tok) with (String "B" ("earer " +:+ tok)) in *.
  rewrite Hm. reflexivity.
Qed.

Lemma X10_header_token_round_trip_witness :
  extract req_header_abc = inr (Some "abc").
Proof.
  apply (X10_header_token_round_trip req_trailing_text "Bearer abc def" "abc"
           req_header_abc).
  - reflexivity.
  - reflexivity.
  - reflexivity.
  - reflexivity.
  - reflexivity.
Defined.
